(** * Domain-availability classifier of the Whodis MCP server

    A shallow embedding of [src/services/domain-availability.service.ts]
    (function [check]) together with the part of [src/utils/error.util.ts]
    it calls ([McpError], [createUnexpectedError], [ensureMcpError]).

    Conventions of the embedding:
    - JavaScript strings are byte strings ([string]), read as UTF-8 text;
      the substrings searched for are ASCII.
    - [String.prototype.toLowerCase] is a built-in of the host: the
      development is parametric in it (Section variable [toLowerCase]) and
      [toLowerCase_ascii] is the instance used to run examples.
    - A WHOIS answer is a tree of strings, arrays and objects; an object is
      the list of its own enumerable properties in enumeration order.
    - [try]/[catch] is an error monad ([completion]); a promise is modelled
      by its final state; [Promise.allSettled] writes each settled result in
      the slot of its input position, in the order the queries complete.
    - Logger calls have no effect on the result and are left out. *)

From Stdlib Require Import String Ascii Bool Arith ZArith Lia.
From stdpp Require Import base list sets strings pretty.

(** ** JavaScript values returned by the WHOIS library *)

#[warnings="-register-all"]
Inductive value : Type :=
| VStr (s : string)
| VArr (items : list value)
| VObj (props : list (string * value)).

(** ToBoolean: the empty string is falsy, arrays and objects are truthy. *)
Definition truthy (v : value) : bool :=
  match v with
  | VStr s => negb (String.eqb s "")
  | VArr _ => true
  | VObj _ => true
  end.

(** A property read that yields [undefined] is falsy. *)
Definition truthy_prop (o : option value) : bool :=
  match o with
  | Some v => truthy v
  | None => false
  end.

Definition typeof (v : value) : string :=
  match v with
  | VStr _ => "string"
  | VArr _ => "object"
  | VObj _ => "object"
  end.

Definition indices (n : nat) : list string := pretty <$> seq 0 n.

Definition Object_keys (v : value) : list string :=
  match v with
  | VStr s => indices (String.length s)
  | VArr items => indices (length items)
  | VObj props => props.*1
  end.

Definition Object_values (v : value) : list value :=
  match v with
  | VStr s => (fun c => VStr (String c "")) <$> list_ascii_of_string s
  | VArr items => items
  | VObj props => props.*2
  end.

Fixpoint assoc (key : string) (props : list (string * value)) : option value :=
  match props with
  | [] => None
  | (k, v) :: rest => if String.eqb k key then Some v else assoc key rest
  end.

(** [v[key]] for a key that is neither an index nor [length] (the three
    field names read by the classifier): only an object can own it. *)
Definition get (v : value) (key : string) : option value :=
  match v with
  | VObj props => assoc key props
  | VArr _ => None
  | VStr _ => None
  end.

(** ** Strings *)

(** [s.includes(pat)] *)
Fixpoint includes (s pat : string) : bool :=
  String.prefix pat s ||
  match s with
  | EmptyString => false
  | String _ rest => includes rest pat
  end.

Definition lower_ascii (c : ascii) : ascii :=
  let n := nat_of_ascii c in
  if (65 <=? n) && (n <=? 90) then ascii_of_nat (n + 32) else c.

(** Lower-casing of the ASCII letters; other bytes are kept. *)
Fixpoint toLowerCase_ascii (s : string) : string :=
  match s with
  | EmptyString => EmptyString
  | String c rest => String (lower_ascii c) (toLowerCase_ascii rest)
  end.

Definition hex_digit (n : nat) : ascii :=
  if n <? 10 then ascii_of_nat (48 + n) else ascii_of_nat (87 + n).

(** One character of QuoteJSONString. *)
Definition quote_char (c : ascii) : string :=
  let n := nat_of_ascii c in
  if n =? 8 then "\b"
  else if n =? 9 then "\t"
  else if n =? 10 then "\n"
  else if n =? 12 then "\f"
  else if n =? 13 then "\r"
  else if n =? 34 then String "\" (String c "")
  else if n =? 92 then "\\"
  else if n <? 32 then
    "\u00" +:+ String (hex_digit (n / 16)) (String (hex_digit (n mod 16)) "")
  else String c "".

Fixpoint quote_chars (s : string) : string :=
  match s with
  | EmptyString => EmptyString
  | String c rest => quote_char c +:+ quote_chars rest
  end.

Definition dquote : string := String (ascii_of_nat 34) "".

Definition quote (s : string) : string := dquote +:+ quote_chars s +:+ dquote.

Fixpoint join (sep : string) (parts : list string) : string :=
  match parts with
  | [] => ""
  | [p] => p
  | p :: rest => p +:+ sep +:+ join sep rest
  end.

(** [JSON.stringify(v)] without indentation. *)
Fixpoint JSON_stringify (v : value) : string :=
  match v with
  | VStr s => quote s
  | VArr items => "[" +:+ join "," (map JSON_stringify items) +:+ "]"
  | VObj props =>
      "{" +:+
      join "," (map (fun p => match p with
                              | (k, x) => quote k +:+ ":" +:+ JSON_stringify x
                              end) props) +:+
      "}"
  end.

Example JSON_stringify_sample :
  JSON_stringify
    (VObj [("whois.nic.xyz", VObj [("Domain Status", VArr []);
                                   ("text", VArr [VStr "DOMAIN NOT FOUND"])])])
  = "{" +:+ dquote +:+ "whois.nic.xyz" +:+ dquote +:+ ":{" +:+
    dquote +:+ "Domain Status" +:+ dquote +:+ ":[]," +:+
    dquote +:+ "text" +:+ dquote +:+ ":[" +:+
    dquote +:+ "DOMAIN NOT FOUND" +:+ dquote +:+ "]}}".
Proof. reflexivity. Qed.

Definition newline : string := String (ascii_of_nat 10) "".

(** [JSON.stringify(v, null, gap)] for a string [gap], at the current
    indentation [indent]: an empty array or object is ["[]"] or ["{}"];
    with an empty [gap] the text is compact; otherwise each element is put
    on a line of its own, indented by one more [gap], and a member is
    written [key: value]. *)
Fixpoint JSON_stringify_gap (gap indent : string) (v : value) : string :=
  match v with
  | VStr s => quote s
  | VArr items =>
      let stepback := indent in
      let indent := indent +:+ gap in
      let partial := map (JSON_stringify_gap gap indent) items in
      match partial with
      | [] => "[]"
      | _ :: _ =>
          if String.eqb gap "" then "[" +:+ join "," partial +:+ "]"
          else
            "[" +:+ newline +:+ indent +:+
            join ("," +:+ newline +:+ indent) partial +:+
            newline +:+ stepback +:+ "]"
      end
  | VObj props =>
      let stepback := indent in
      let indent := indent +:+ gap in
      let partial :=
        map (fun p => match p with
                      | (k, x) =>
                          quote k +:+ ":" +:+
                          (if String.eqb gap "" then "" else " ") +:+
                          JSON_stringify_gap gap indent x
                      end) props in
      match partial with
      | [] => "{}"
      | _ :: _ =>
          if String.eqb gap "" then "{" +:+ join "," partial +:+ "}"
          else
            "{" +:+ newline +:+ indent +:+
            join ("," +:+ newline +:+ indent) partial +:+
            newline +:+ stepback +:+ "}"
      end
  end.

(** ** Errors ([src/utils/error.util.ts]) *)

Inductive ErrorType : Type :=
| AUTH_MISSING
| AUTH_INVALID
| API_ERROR
| UNEXPECTED_ERROR.

(** What a failed query can throw, and what the handler itself can throw:
    an [Error] instance (with its [name] and [message]), an [McpError]
    (an [Error] whose [name] is ["McpError"]), a bare string, [null] or
    [undefined]. Other values a JavaScript program can throw (numbers,
    objects that are no [Error]) are not modelled. *)
#[warnings="-register-all"]
Inductive thrown : Type :=
| ErrorInstance (name message : string)
| McpErrorInstance (message : string) (type : ErrorType)
    (statusCode : option nat) (originalError : option thrown)
| StringValue (s : string)
| NullValue
| UndefinedValue.

(** [Error.prototype.toString] *)
Definition Error_toString (name msg : string) : string :=
  if String.eqb name "" then msg
  else if String.eqb msg "" then name
  else name +:+ ": " +:+ msg.

(** [String(error)] *)
Definition String_of (error : thrown) : string :=
  match error with
  | ErrorInstance name message => Error_toString name message
  | McpErrorInstance message _ _ _ => Error_toString "McpError" message
  | StringValue s => s
  | NullValue => "null"
  | UndefinedValue => "undefined"
  end.

Definition createUnexpectedError (message : option string)
    (originalError : option thrown) : thrown :=
  McpErrorInstance (default "An unexpected error occurred" message)
    UNEXPECTED_ERROR None originalError.

Definition ensureMcpError (error : thrown) : thrown :=
  match error with
  | McpErrorInstance _ _ _ _ => error
  | ErrorInstance _ message => createUnexpectedError (Some message) (Some error)
  | _ => createUnexpectedError (Some (String_of error)) None
  end.

Definition createAuthMissingError (message : option string) : thrown :=
  McpErrorInstance (default "Authentication credentials are missing" message)
    AUTH_MISSING None None.

Definition createAuthInvalidError (message : option string) : thrown :=
  McpErrorInstance (default "Authentication credentials are invalid" message)
    AUTH_INVALID (Some 401) None.

Definition createApiError (message : string) (statusCode : option nat)
    (originalError : option thrown) : thrown :=
  McpErrorInstance message API_ERROR statusCode originalError.

(** The string value of a member of the enum [ErrorType]. *)
Definition ErrorType_value (t : ErrorType) : string :=
  match t with
  | AUTH_MISSING => "AUTH_MISSING"
  | AUTH_INVALID => "AUTH_INVALID"
  | API_ERROR => "API_ERROR"
  | UNEXPECTED_ERROR => "UNEXPECTED_ERROR"
  end.

(** [e instanceof McpError] *)
Definition instanceof_McpError (e : thrown) : bool :=
  match e with
  | McpErrorInstance _ _ _ _ => true
  | _ => false
  end.

(** [e instanceof Error] *)
Definition instanceof_Error (e : thrown) : bool :=
  match e with
  | ErrorInstance _ _ => true
  | McpErrorInstance _ _ _ _ => true
  | _ => false
  end.

(** [e.message] and [e.type] of a value that is not [null] or [undefined];
    [None] is [undefined]. *)
Definition message_prop (e : thrown) : option string :=
  match e with
  | ErrorInstance _ message => Some message
  | McpErrorInstance message _ _ _ => Some message
  | _ => None
  end.

Definition type_prop (e : thrown) : option string :=
  match e with
  | McpErrorInstance _ type _ _ => Some (ErrorType_value type)
  | _ => None
  end.

(** A string or [undefined] inside a template literal. *)
Definition template (o : option string) : string := default "undefined" o.

Record TextContent : Type := {
  content_type : string;
  text : string;
}.

(** The value [{ content: [...] }] a tool returns. *)
Record McpToolResponse : Type := {
  tool_content : list TextContent;
}.

Definition formatErrorForMcpTool (error : thrown) : McpToolResponse :=
  let mcpError := ensureMcpError error in
  {| tool_content :=
       [{| content_type := "text";
           text := "Error: " +:+ template (message_prop mcpError) |}] |}.

Record ResourceContent : Type := {
  uri : string;
  resource_text : string;
  mimeType : string;
  description : option string;
}.

(** The value [{ contents: [...] }] a resource returns. *)
Record McpResourceResponse : Type := {
  contents : list ResourceContent;
}.

Definition formatErrorForMcpResource (error : thrown) (uri : string)
    : McpResourceResponse :=
  let mcpError := ensureMcpError error in
  {| contents :=
       [{| uri := uri;
           resource_text := "Error: " +:+ template (message_prop mcpError);
           mimeType := "text/plain";
           description :=
             Some ("Error: " +:+ template (type_prop mcpError)) |}] |}.

(** The calls a run of the command line makes to the console and to
    [process.exit]: the arguments of its calls of [console.log], those of
    its calls of [console.error], and the status given to [process.exit],
    if it was called. The calls of the [Logger], whose module is not part
    of the sources at hand, are not recorded: what the logger writes to the
    streams of the process is outside this record. *)
Record cli_run : Type := {
  console_log : list string;
  console_error : list string;
  exitCode : option nat;
}.

(** [handleCliError(error)], after the console calls [logged] and
    [errors]: it calls [console.error] once and exits with status 1. *)
Definition handleCliError (logged errors : list string) (error : thrown)
    : cli_run :=
  let mcpError := ensureMcpError error in
  {| console_log := logged;
     console_error :=
       errors ++ ["Error: " +:+ template (message_prop mcpError)];
     exitCode := Some 1 |}.

(** ** Formatting ([src/utils/formatter.util.ts]) *)

(** [s.repeat(n)] *)
Fixpoint String_repeat (s : string) (n : nat) : string :=
  match n with
  | 0 => ""
  | S n' => s +:+ String_repeat s n'
  end.

(** [!s] for an optional string: [undefined] and the empty string. *)
Definition falsy_string (o : option string) : bool :=
  match o with
  | None => true
  | Some s => String.eqb s ""
  end.

Definition formatUrl (url title : option string) : string :=
  if falsy_string url then "Not available"
  else
    let linkTitle := if falsy_string title then template url else template title in
    "[" +:+ linkTitle +:+ "](" +:+ template url +:+ ")".

(** [formatHeading(text, level)] for an integer [level]; [None] is an
    omitted argument, which defaults to 1. *)
Definition formatHeading (text : string) (level : option Z) : string :=
  let level := default 1%Z level in
  let validLevel := Z.min (Z.max level 1) 6 in
  let prefix := String_repeat "#" (Z.to_nat validLevel) in
  prefix +:+ " " +:+ text.

Definition formatSeparator : string := "---".

Definition formatNumberedList {T} (items : list T)
    (formatter : T -> nat -> string) : string :=
  if length items =? 0 then "No items."
  else
    join (newline +:+ newline +:+ formatSeparator +:+ newline +:+ newline)
      (imap (fun index item => formatter item index) items).

(** ** Common types ([src/types/common.types.ts]) *)

Record ResponsePagination : Type := {
  nextCursor : option string;
  hasMore : bool;
  count : option nat;
}.

Record ControllerResponse : Type := {
  content : string;
  pagination : option ResponsePagination;
}.

(** ** Control: exceptions and promises *)

(** The completion of a block: a value, or a thrown value. *)
Inductive completion (A : Type) : Type :=
| Normal (a : A)
| Throw (e : thrown).
Arguments Normal {A} a.
Arguments Throw {A} e.

(** Sequencing: a throw skips the rest of the block. *)
#[global] Instance completion_bind : MBind completion :=
  fun A B (k : A -> completion B) (c : completion A) =>
    match c with
    | Normal a => k a
    | Throw e => Throw e
    end.

(** [try { body } catch (error) { handler }] *)
Definition try_catch {A} (body : completion A)
    (handler : thrown -> completion A) : completion A :=
  match body with
  | Normal a => Normal a
  | Throw error => handler error
  end.

(** An element of the array [Promise.allSettled] resolves to. *)
Inductive PromiseSettledResult (A : Type) : Type :=
| fulfilled (value : A)
| rejected (reason : thrown).
Arguments fulfilled {A} value.
Arguments rejected {A} reason.

(** The promise of an [async] function settles with its completion. *)
Definition settle {A} (c : completion A) : PromiseSettledResult A :=
  match c with
  | Normal a => fulfilled a
  | Throw e => rejected e
  end.

(** The final state of a promise that is awaited. *)
Inductive promise (A : Type) : Type :=
| Pending
| Resolved (a : A)
| Rejected (e : thrown).
Arguments Pending {A}.
Arguments Resolved {A} a.
Arguments Rejected {A} e.

(** One completion event of [Promise.allSettled]: the promise at position
    [i] settles and its result is stored in slot [i]. *)
Definition store {A} (tasks : list (completion A))
    (values : list (option (PromiseSettledResult A))) (i : nat)
    : list (option (PromiseSettledResult A)) :=
  match tasks !! i with
  | Some c => <[i := Some (settle c)]> values
  | None => values
  end.

(** [await Promise.allSettled(tasks)], the queries completing in the order
    [sched] (positions in [tasks]). The result is the array of slots once
    every one is filled, whatever the order; it never rejects, and stays
    pending when some query never settles. *)
Definition allSettled {A} (sched : list nat) (tasks : list (completion A))
    : promise (list (PromiseSettledResult A)) :=
  match mapM id (foldl (store tasks) (replicate (length tasks) None) sched) with
  | Some values => Resolved values
  | None => Pending
  end.

(** [arr.forEach((x, index) => ...)] over a state [St]. *)
Fixpoint forEach_from {A St} (f : St -> A -> nat -> St) (index : nat)
    (arr : list A) (s : St) : St :=
  match arr with
  | [] => s
  | x :: rest => forEach_from f (S index) rest (f s x index)
  end.

Definition forEach {A St} (f : St -> A -> nat -> St) (arr : list A) (s : St)
    : St :=
  forEach_from f 0 arr s.

(** ** The service ([src/services/domain-availability.service.ts]) *)

Record DomainAvailabilityResult : Type := {
  available : list string;
  unavailable : list string;
}.

(** The [status] field of what a lookup returns. *)
Inductive Status : Type :=
| st_available
| st_unavailable
| st_failed.

#[global] Instance Status_eq_dec : EqDecision Status.
Proof. solve_decision. Defined.

Record lookup_value : Type := {
  domain : string;
  status : Status;
  error : option thrown;
}.

(** The outcome of one [whoiser.domain(domain, { timeout: 5000 })]. *)
Inductive outcome : Type :=
| Returns (domainInfo : value)
| Raises (error : thrown).

Definition run (o : outcome) : completion value :=
  match o with
  | Returns domainInfo => Normal domainInfo
  | Raises error => Throw error
  end.

(** [error.message]: reading a property of [null] or [undefined] throws. *)
Definition message_of (error : thrown) : completion (option string) :=
  match error with
  | ErrorInstance _ message => Normal (Some message)
  | McpErrorInstance message _ _ _ => Normal (Some message)
  | StringValue _ => Normal None
  | NullValue =>
      Throw (ErrorInstance "TypeError"
               "Cannot read properties of null (reading 'message')")
  | UndefinedValue =>
      Throw (ErrorInstance "TypeError"
               "Cannot read properties of undefined (reading 'message')")
  end.

(** [error.message || String(error)]: an empty message is falsy. *)
Definition message_text (error : thrown) : completion string :=
  m ← message_of error;
  Normal (match m with
          | Some message =>
              if negb (String.eqb message "") then message else String_of error
          | None => String_of error
          end).

Section Classifier.

(** [String.prototype.toLowerCase] *)
Variable toLowerCase : string -> string.

(** The condition of the [.some] over [Object.values(domainInfo)]. *)
Definition registrar_fields (serverData : value) : bool :=
  truthy serverData &&
  (truthy_prop (get serverData "Registrar") ||
   truthy_prop (get serverData "Creation Date") ||
   truthy_prop (get serverData "Expiry Date")).

(** The body of the [async (domain) => ...] mapped over [domains], run on
    the outcome [o] of its WHOIS query. *)
Definition lookup (domain : string) (o : outcome) : completion lookup_value :=
  try_catch
    (domainInfo ← run o;
     if truthy domainInfo &&
        String.eqb (typeof domainInfo) "object" &&
        (0 <? length (Object_keys domainInfo))
     then
       let hasRegistrarData :=
         existsb registrar_fields (Object_values domainInfo) in
       if hasRegistrarData then
         Normal {| domain := domain; status := st_unavailable; error := None |}
       else
         let rawText := toLowerCase (JSON_stringify domainInfo) in
         if includes rawText "no match" ||
            includes rawText "not found" ||
            includes rawText "domain name not known" ||
            includes rawText "no entries found" ||
            includes rawText "is available" ||
            includes rawText "is free"
         then
           Normal {| domain := domain; status := st_available; error := None |}
         else
           Normal {| domain := domain; status := st_unavailable; error := None |}
     else
       Normal {| domain := domain; status := st_available; error := None |})
    (fun error =>
       text ← message_text error;
       let errorMessage := toLowerCase text in
       if includes errorMessage "no match" ||
          includes errorMessage "not found" ||
          includes errorMessage "domain name not known" ||
          includes errorMessage "no entries found"
       then
         Normal {| domain := domain; status := st_available; error := None |}
       else
         Normal {| domain := domain; status := st_failed;
                   error := Some (ensureMcpError error) |}).

(** The body of the [checks.forEach((result, index) => ...)], on the
    accumulator [results]. [domains[index]] is always in range: [checks]
    has the length of [domains]. The value of a fulfilled lookup is an
    object, so the test [&& result.value] always passes. *)
Definition place (domains : list string) (results : DomainAvailabilityResult)
    (result : PromiseSettledResult lookup_value) (index : nat)
    : DomainAvailabilityResult :=
  match domains !! index with
  | None => results
  | Some domain =>
      match result with
      | fulfilled value =>
          match status value with
          | st_available =>
              {| available := available results ++ [domain];
                 unavailable := unavailable results |}
          | st_unavailable =>
              {| available := available results;
                 unavailable := unavailable results ++ [domain] |}
          | st_failed => results
          end
      | rejected _ => results
      end
  end.

(** [check(domains)]. The [i]-th call of the WHOIS library, made for
    [domains[i]], has the outcome [whoiser_domain i domains[i]]; the
    queries complete in the order [sched]. *)
Definition check (sched : list nat) (whoiser_domain : nat -> string -> outcome)
    (domains : list string) : promise DomainAvailabilityResult :=
  let results := {| available := []; unavailable := [] |} in
  match
    allSettled sched
      (imap (fun i domain => lookup domain (whoiser_domain i domain)) domains)
  with
  | Pending => Pending
  | Rejected e => Rejected e
  | Resolved checks => Resolved (forEach (place domains) checks results)
  end.

(** ** The callers of the service *)

(** The object [results] as a JavaScript value: its two properties in the
    order of the object literal. *)
Definition report_value (results : DomainAvailabilityResult) : value :=
  VObj [("available", VArr (VStr <$> available results));
        ("unavailable", VArr (VStr <$> unavailable results))].

(** The second argument of [handleControllerError]. *)
Record ErrorContext : Type := {
  entityType : string;
  operation : string;
  source : string;
  domainCount : nat;
}.

(** [handleControllerError] of [src/utils/error-handler.util.ts], a file
    that is not part of the sources at hand: any behaviour is allowed. *)
Variable handleControllerError : thrown -> ErrorContext -> completion ControllerResponse.

(** [check(domains)] of [src/controllers/domain-availability.controller.ts]
    (namespace [DomainAvailabilityController]). *)
Definition DomainAvailabilityController_check (sched : list nat)
    (whoiser_domain : nat -> string -> outcome) (domains : list string)
    : promise ControllerResponse :=
  match check sched whoiser_domain domains with
  | Pending => Pending
  | Resolved availabilityResult =>
      let formattedContent :=
        JSON_stringify_gap "  " "" (report_value availabilityResult) in
      Resolved {| content := formattedContent; pagination := None |}
  | Rejected error =>
      match
        handleControllerError error
          {| entityType := "Domain Availability";
             operation := "checking";
             source := "controllers/domain-availability.controller.ts@check";
             domainCount := length domains |}
      with
      | Normal response => Resolved response
      | Throw e => Rejected e
      end
  end.

(** The arguments of the tool ([CheckDomainAvailabilityArgsType]). *)
Record CheckDomainAvailabilityArgsType : Type := {
  domains : list string;
}.

(** [handleCheckDomainAvailability(args, _extra)] of the tool
    [check-domain-availability]. *)
Definition handleCheckDomainAvailability (sched : list nat)
    (whoiser_domain : nat -> string -> outcome)
    (args : CheckDomainAvailabilityArgsType) : promise McpToolResponse :=
  match DomainAvailabilityController_check sched whoiser_domain (domains args) with
  | Pending => Pending
  | Resolved result =>
      Resolved {| tool_content :=
                    [{| content_type := "text"; text := content result |}] |}
  | Rejected error => Resolved (formatErrorForMcpTool error)
  end.

(** The action of the command [check-domain-availability <domains...>] of
    [src/cli/domain-availability.cli.ts]: the console calls it has made
    when the run ends. [process.exit] ends the run at once. *)
Definition check_domain_availability_action (sched : list nat)
    (whoiser_domain : nat -> string -> outcome) (domains : list string)
    : promise cli_run :=
  if length domains =? 0 then
    Resolved {| console_log := [];
                console_error :=
                  ["Error: Please provide at least one domain name."];
                exitCode := Some 1 |}
  else
    match DomainAvailabilityController_check sched whoiser_domain domains with
    | Pending => Pending
    | Resolved result =>
        Resolved {| console_log := [content result]; console_error := [];
                    exitCode := None |}
    | Rejected error => Resolved (handleCliError [] [] error)
    end.

(** ** Reading the result *)

(** The three-way verdict of the specification, read off a settled lookup
    the way the aggregation loop reads it: a fulfilled lookup whose status
    is ['failed'], and a rejected one, are both left out of the report. *)
Inductive Verdict : Type :=
| Available
| Unavailable
| Indeterminate.

#[global] Instance Verdict_eq_dec : EqDecision Verdict.
Proof. solve_decision. Defined.

Definition verdict (result : PromiseSettledResult lookup_value) : Verdict :=
  match result with
  | fulfilled value =>
      match status value with
      | st_available => Available
      | st_unavailable => Unavailable
      | st_failed => Indeterminate
      end
  | rejected _ => Indeterminate
  end.

(** The verdict of the lookup launched for position [i], domain [d]. *)
Definition verdict_at (whoiser_domain : nat -> string -> outcome)
    (i : nat) (d : string) : Verdict :=
  verdict (settle (lookup d (whoiser_domain i d))).

(** The stable filter of the specification: the domains of the input whose
    lookup has verdict [v], in input order; the positions are counted from
    [k]. *)
Definition classified_from (k : nat) (v : Verdict)
    (whoiser_domain : nat -> string -> outcome) (domains : list string)
    : list string :=
  (filter (fun p => verdict_at whoiser_domain p.1 p.2 = v)
     (imap (fun i d => (k + i, d)) domains)).*2.

Definition classified := classified_from 0.

(** The substring tables of the specification. *)
Definition failure_patterns : list string :=
  ["no match"; "not found"; "domain name not known"; "no entries found"].

Definition record_patterns : list string :=
  failure_patterns ++ ["is available"; "is free"].

Definition registrar_keys : list string :=
  ["Registrar"; "Creation Date"; "Expiry Date"].

(** [text], lower-cased, contains one of [patterns]. *)
Definition mentions (patterns : list string) (text : string) : bool :=
  existsb (includes (toLowerCase text)) patterns.

(** The failure carries a message text that, lower-cased, contains one of
    the substrings of [failure_patterns]. *)
Definition not_found_failure (error : thrown) : bool :=
  match message_text error with
  | Normal text => mentions failure_patterns text
  | Throw _ => false
  end.

(** Every query settles at some point of the schedule. *)
Definition settles_all (sched : list nat) (n : nat) : Prop :=
  forall i, i < n -> i ∈ sched.

(** Number of occurrences of [d] in [l]. *)
Definition occurrences (d : string) (l : list string) : nat :=
  length (filter (fun x => x = d) l).

(** ** Sample batches *)

Definition timeout_error : thrown := ErrorInstance "Error" "connect ETIMEDOUT".

Definition no_match_error : thrown :=
  ErrorInstance "Error" "No match for A-TIMES-OUT.COM".

Definition registered_record : value :=
  VObj [("whois.verisign-grs.com", VObj [("Registrar", VStr "MarkMonitor Inc.")])].

Definition not_found_record : value :=
  VObj [("whois.nic.google", VObj [("text", VArr [VStr "Domain not found."])])].

Definition sample_domains : list string :=
  ["a-times-out.com"; "google.com"; "totally-free-xyz123.dev";
   "unreachable.io"; "free-idea.dev"; "null-thrower.org"].

(** The outcomes of the queries of [sample_domains], by position. *)
Definition sample_whois (i : nat) (d : string) : outcome :=
  match i with
  | 0 => Raises no_match_error
  | 1 => Returns registered_record
  | 2 => Returns (VObj [])
  | 3 => Raises timeout_error
  | 4 => Returns not_found_record
  | _ => Raises NullValue
  end.

(** A name asked twice whose two queries are answered differently. *)
Definition flaky_whois (i : nat) (d : string) : outcome :=
  match i with
  | 0 => Returns (VObj [])
  | _ => Returns registered_record
  end.


(** An error handler that rethrows the error as an [McpError]. *)
Definition rethrow (e : thrown) (ctx : ErrorContext)
    : completion ControllerResponse :=
  Throw (ensureMcpError e).

(** Every query times out. *)
Definition down_whois (i : nat) (d : string) : outcome := Raises timeout_error.

(** * Properties *)

(** ** [Promise.allSettled] *)

Section AllSettled.
Context {A : Type}.
Implicit Types (tasks : list (completion A)) (sched : list nat).

Lemma length_store tasks values i :
  length (store tasks values i) = length values.
Proof.
  unfold store. destruct (tasks !! i); [apply length_insert | reflexivity].
Qed.

Lemma length_slots tasks sched :
  length (foldl (store tasks) (replicate (length tasks) None) sched)
  = length tasks.
Proof.
  induction sched as [|i sched IH] using rev_ind; simpl.
  - apply length_replicate.
  - rewrite foldl_snoc, length_store. exact IH.
Qed.

Lemma elem_of_snoc (i j : nat) sched :
  i ∈ sched ++ [j] <-> i ∈ sched \/ i = j.
Proof. rewrite elem_of_app, list_elem_of_singleton. reflexivity. Qed.

(** Slot [i] holds the result of task [i] as soon as [i] has completed. *)
Lemma lookup_slots tasks sched i :
  foldl (store tasks) (replicate (length tasks) None) sched !! i =
  (fun c => if decide (i ∈ sched) then Some (settle c) else None)
    <$> tasks !! i.
Proof.
  induction sched as [|j sched IH] using rev_ind.
  - simpl. destruct (tasks !! i) as [c|] eqn:Hi; simpl.
    + apply lookup_replicate_2. eapply lookup_lt_Some; eauto.
    + apply lookup_replicate_None. apply lookup_ge_None. exact Hi.
  - rewrite foldl_snoc. unfold store at 1.
    destruct (tasks !! j) as [cj|] eqn:Hj.
    + destruct (decide (i = j)) as [->|Hne].
      * rewrite list_lookup_insert_eq
          by (rewrite length_slots; eapply lookup_lt_Some; eauto).
        rewrite Hj. simpl. rewrite decide_True; [reflexivity|].
        apply elem_of_snoc. right. reflexivity.
      * rewrite list_lookup_insert_ne by congruence. rewrite IH.
        destruct (tasks !! i); simpl; [|reflexivity].
        repeat case_decide; try reflexivity;
          rewrite elem_of_snoc in *; tauto.
    + rewrite IH. destruct (tasks !! i) as [c|] eqn:Hi; simpl; [|reflexivity].
      assert (i <> j) by congruence.
      repeat case_decide; try reflexivity;
        rewrite elem_of_snoc in *; tauto.
Qed.

(** Whatever the completion order, once every task has settled the result
    is the array of the settled results in input order. *)
Lemma allSettled_complete tasks sched :
  settles_all sched (length tasks) ->
  allSettled sched tasks = Resolved (settle <$> tasks).
Proof.
  intros Hall. unfold allSettled.
  replace (foldl (store tasks) (replicate (length tasks) None) sched)
    with (Some <$> (settle <$> tasks)).
  - rewrite mapM_fmap_Some by reflexivity. reflexivity.
  - apply list_eq. intros i. rewrite lookup_slots, !list_lookup_fmap.
    destruct (tasks !! i) as [c|] eqn:Hi; simpl; [|reflexivity].
    rewrite decide_True; [reflexivity|].
    apply Hall. eapply lookup_lt_Some; eauto.
Qed.

Lemma allSettled_never_rejects tasks sched e :
  allSettled sched tasks <> Rejected e.
Proof. unfold allSettled. destruct (mapM _ _); discriminate. Qed.

End AllSettled.

Lemma settles_all_check sched n :
  forallb (fun i => bool_decide (i ∈ sched)) (seq 0 n) = true ->
  settles_all sched n.
Proof.
  intros H i Hi. rewrite forallb_forall in H.
  eapply bool_decide_eq_true_1. apply H. apply in_seq. lia.
Qed.

(** ** Substrings *)

Lemma prefix_spec p s :
  String.prefix p s = true <-> exists post, s = p +:+ post.
Proof.
  revert s. induction p as [|a p IH]; intros s.
  - split; [intros _; by exists s|intros _; by destruct s].
  - destruct s as [|b s]; simpl;
      [split; [discriminate|intros [? ?]; discriminate]|].
    destruct (ascii_dec a b) as [->|Hne].
    + rewrite IH. split; intros [post H]; exists post.
      * simpl. by rewrite H.
      * simpl in H. by injection H.
    + split; [discriminate|]. intros [post H]. simpl in H.
      injection H as -> _. done.
Qed.

(** [includes s pat] holds exactly when [pat] occurs in [s]. *)
Lemma includes_spec s pat :
  includes s pat = true <-> exists pre post, s = pre +:+ pat +:+ post.
Proof.
  induction s as [|c s IH].
  - change (includes "" pat) with (String.prefix pat "" || false).
    rewrite orb_false_r, prefix_spec. split.
    + intros [post H]. by exists "", post.
    + intros (pre & post & H). destruct pre; [by exists post|discriminate].
  - change (includes (String c s) pat)
      with (String.prefix pat (String c s) || includes s pat).
    rewrite orb_true_iff, prefix_spec, IH. split.
    + intros [[post H]|(pre & post & H)].
      * by exists "", post.
      * exists (String c pre), post. simpl. by rewrite H.
    + intros (pre & post & H). destruct pre as [|c' pre]; simpl in H.
      * left. by exists post.
      * right. exists pre, post. by injection H.
Qed.

(** ** The aggregation loop *)

Implicit Types (whois : nat -> string -> outcome) (domains : list string).

Lemma classified_from_nil k v whois : classified_from k v whois [] = [].
Proof. reflexivity. Qed.

Lemma classified_from_cons k v whois d domains :
  classified_from k v whois (d :: domains) =
  (if decide (verdict_at whois k d = v) then [d] else []) ++
  classified_from (S k) v whois domains.
Proof.
  unfold classified_from. rewrite imap_cons, filter_cons. simpl.
  replace (k + 0) with k by lia.
  assert (imap ((fun i d0 => (k + i, d0)) ∘ S) domains
          = imap (fun i d0 => (S k + i, d0)) domains) as ->.
  { apply imap_ext. intros i x _. simpl. f_equal. lia. }
  case_decide; reflexivity.
Qed.

Lemma classified_from_app k v whois l1 l2 :
  classified_from k v whois (l1 ++ l2) =
  classified_from k v whois l1 ++ classified_from (k + length l1) v whois l2.
Proof.
  revert k. induction l1 as [|d l1 IH]; intros k; simpl.
  - replace (k + 0) with k by lia. reflexivity.
  - rewrite !classified_from_cons, IH, <- app_assoc.
    replace (S k + length l1) with (k + S (length l1)) by lia. reflexivity.
Qed.

(** The loop appends to each list the stable filter of the remaining input. *)
Lemma forEach_from_place whois rest : forall pre results,
  forEach_from (place (pre ++ rest)) (length pre)
    (settle <$> imap (fun i d => lookup d (whois (length pre + i) d)) rest)
    results
  = {| available :=
         available results ++ classified_from (length pre) Available whois rest;
       unavailable :=
         unavailable results ++
         classified_from (length pre) Unavailable whois rest |}.
Proof.
  induction rest as [|d rest IH]; intros pre results.
  - simpl. rewrite !classified_from_nil, !app_nil_r. destruct results; reflexivity.
  - rewrite imap_cons, fmap_cons. simpl forEach_from.
    replace (length pre + 0) with (length pre) by lia.
    assert (imap ((fun i d0 => lookup d0 (whois (length pre + i) d0)) ∘ S) rest
            = imap (fun i d0 => lookup d0 (whois (length (pre ++ [d]) + i) d0))
                rest) as ->.
    { apply imap_ext. intros i x _. simpl. rewrite length_app. simpl.
      do 2 f_equal. lia. }
    replace (S (length pre)) with (length (pre ++ [d]))
      by (rewrite length_app; simpl; lia).
    replace (pre ++ d :: rest) with ((pre ++ [d]) ++ rest)
      by (rewrite <- app_assoc; reflexivity).
    rewrite IH. rewrite !classified_from_cons.
    replace (length (pre ++ [d])) with (S (length pre))
      by (rewrite length_app; simpl; lia).
    unfold place. rewrite <- app_assoc. simpl.
    rewrite list_lookup_middle by reflexivity.
    unfold verdict_at, verdict.
    destruct (settle (lookup d (whois (length pre) d))) as [value|reason].
    + destruct (status value); simpl; repeat case_decide; try congruence;
        simpl; rewrite <- ?app_assoc; reflexivity.
    + repeat case_decide; try congruence. reflexivity.
Qed.

(** Once every query has settled, [check] resolves to the two stable
    filters of its input, whatever the order of completion. *)
Lemma check_resolved sched whois domains :
  settles_all sched (length domains) ->
  check sched whois domains =
  Resolved {| available := classified Available whois domains;
              unavailable := classified Unavailable whois domains |}.
Proof.
  intros Hall. unfold check.
  rewrite allSettled_complete by (rewrite length_imap; exact Hall).
  unfold forEach. f_equal.
  exact (forEach_from_place whois domains []
           {| available := []; unavailable := [] |}).
Qed.

Lemma check_never_rejects sched whois domains e :
  check sched whois domains <> Rejected e.
Proof.
  unfold check.
  destruct (allSettled _ _) as [|checks|e'] eqn:E; try discriminate.
  by apply allSettled_never_rejects in E.
Qed.

(** ** The stable filters *)

Lemma classified_from_sublist k v whois domains :
  classified_from k v whois domains `sublist_of` domains.
Proof.
  revert k. induction domains as [|d domains IH]; intros k.
  - rewrite classified_from_nil. constructor.
  - rewrite classified_from_cons. case_decide; simpl.
    + apply sublist_skip, IH.
    + apply sublist_cons, IH.
Qed.

Lemma classified_from_middle k v whois l1 d l2 :
  verdict_at whois (k + length l1) d = v ->
  classified_from k v whois (l1 ++ d :: l2) =
  classified_from k v whois l1 ++
  d :: classified_from (S (k + length l1)) v whois l2.
Proof.
  intros Hv. rewrite classified_from_app, classified_from_cons.
  rewrite decide_True by exact Hv. reflexivity.
Qed.

Lemma elem_of_classified v whois domains i d :
  domains !! i = Some d ->
  verdict_at whois i d = v ->
  d ∈ classified v whois domains.
Proof.
  intros Hi Hv. apply list_elem_of_split_length in Hi as (l1 & l2 & -> & ->).
  unfold classified. rewrite classified_from_middle by exact Hv.
  apply elem_of_app. right. left.
Qed.

Lemma elem_of_classified_from_inv k v whois domains d :
  d ∈ classified_from k v whois domains ->
  exists i, domains !! i = Some d /\ verdict_at whois (k + i) d = v.
Proof.
  revert k. induction domains as [|x domains IH]; intros k.
  - rewrite classified_from_nil. intros H. by apply elem_of_nil in H.
  - rewrite classified_from_cons. intros [Hin|Hin]%elem_of_app.
    + case_decide as Hv; [|by apply elem_of_nil in Hin].
      apply list_elem_of_singleton in Hin as ->.
      exists 0. split; [reflexivity|]. by replace (k + 0) with k by lia.
    + apply IH in Hin as (i & Hi & Hv). exists (S i). split; [exact Hi|].
      by replace (k + S i) with (S k + i) by lia.
Qed.

Lemma length_classified_from k whois domains :
  length (classified_from k Available whois domains) +
  length (classified_from k Unavailable whois domains) <= length domains.
Proof.
  revert k. induction domains as [|d domains IH]; intros k.
  - rewrite !classified_from_nil. simpl. lia.
  - rewrite !classified_from_cons, !length_app. specialize (IH (S k)).
    repeat case_decide; simpl; try congruence; lia.
Qed.

Lemma occurrences_app d l1 l2 :
  occurrences d (l1 ++ l2) = occurrences d l1 + occurrences d l2.
Proof. unfold occurrences. by rewrite filter_app, length_app. Qed.

Lemma occurrences_cons d x l :
  occurrences d (x :: l) = (if decide (x = d) then 1 else 0) + occurrences d l.
Proof. unfold occurrences. rewrite filter_cons. by case_decide. Qed.

(** Each occurrence of a name in the input has exactly one verdict. *)
Lemma occurrences_classified_from k whois domains d :
  occurrences d (classified_from k Available whois domains) +
  occurrences d (classified_from k Unavailable whois domains) +
  occurrences d (classified_from k Indeterminate whois domains)
  = occurrences d domains.
Proof.
  revert k. induction domains as [|x domains IH]; intros k.
  - rewrite !classified_from_nil. reflexivity.
  - rewrite !classified_from_cons, !occurrences_app, occurrences_cons.
    specialize (IH (S k)).
    destruct (verdict_at whois k x) eqn:Hv;
      repeat (case_decide; try congruence);
      rewrite ?occurrences_cons; change (occurrences d []) with 0;
      repeat (case_decide; try congruence); lia.
Qed.



Lemma occurrences_sublist d l1 l2 :
  l1 `sublist_of` l2 -> occurrences d l1 <= occurrences d l2.
Proof.
  induction 1 as [|x l1 l2 _ IH|x l1 l2 _ IH]; rewrite ?occurrences_cons; lia.
Qed.

(** Two occurrences of a name with the same verdict are both kept by the
    filter of that verdict. *)
Lemma classified_duplicate v whois domains i j d :
  i <> j ->
  domains !! i = Some d -> domains !! j = Some d ->
  verdict_at whois i d = v -> verdict_at whois j d = v ->
  [d; d] `sublist_of` classified v whois domains.
Proof.
  assert (forall i j, i < j ->
    domains !! i = Some d -> domains !! j = Some d ->
    verdict_at whois i d = v -> verdict_at whois j d = v ->
    [d; d] `sublist_of` classified v whois domains) as Hlt.
  { clear i j. intros i j Hij Hi Hj Hvi Hvj.
    apply list_elem_of_split_length in Hi as (l1 & l2 & -> & ->).
    rewrite lookup_app_r in Hj by lia.
    destruct (j - length l1) as [|m] eqn:Hm; [lia|]. simpl in Hj.
    apply list_elem_of_split_length in Hj as (l3 & l4 & -> & ->).
    unfold classified. rewrite classified_from_middle by exact Hvi.
    rewrite classified_from_middle
      by (replace (S (0 + length l1) + length l3) with j by lia; exact Hvj).
    apply sublist_inserts_l, sublist_skip, sublist_inserts_l, sublist_skip.
    apply sublist_nil_l. }
  intros Hne Hi Hj Hvi Hvj.
  destruct (Nat.lt_total i j) as [Hij|[Hij|Hij]]; [eauto| congruence | eauto].
Qed.

(** ** One lookup *)

Lemma record_guard domainInfo :
  typeof domainInfo = "object" -> Object_keys domainInfo <> [] ->
  truthy domainInfo && String.eqb (typeof domainInfo) "object" &&
  (0 <? length (Object_keys domainInfo)) = true.
Proof.
  intros Hty Hkeys. rewrite Hty.
  assert (truthy domainInfo = true) as ->
    by (destruct domainInfo; [discriminate Hty|reflexivity|reflexivity]).
  destruct (Object_keys domainInfo); [congruence|reflexivity].
Qed.

Lemma registrar_fields_true serverData :
  registrar_fields serverData = true <->
  exists key, key ∈ registrar_keys /\ truthy_prop (get serverData key) = true.
Proof.
  unfold registrar_fields, registrar_keys. split.
  - intros [_ H]%andb_true_iff.
    apply orb_true_iff in H as [H|H]; [apply orb_true_iff in H as [H|H]|];
      eexists; (split; [|exact H]); set_solver.
  - intros (key & Hkey & H).
    assert (truthy serverData = true) as ->
      by (destruct serverData; [discriminate H|discriminate H|reflexivity]).
    repeat (apply elem_of_cons in Hkey as [->|Hkey]);
      [rewrite H ..|by apply elem_of_nil in Hkey];
      simpl; rewrite ?orb_true_r; reflexivity.
Qed.

Lemma no_registrar_fields_check domainInfo :
  existsb registrar_fields (Object_values domainInfo) = false ->
  forall serverData key,
    serverData ∈ Object_values domainInfo -> key ∈ registrar_keys ->
    truthy_prop (get serverData key) = false.
Proof.
  intros Hnone serverData key Hin Hkey.
  destruct (truthy_prop (get serverData key)) eqn:Htr; [|reflexivity].
  assert (existsb registrar_fields (Object_values domainInfo) = true) as E;
    [|congruence].
  apply existsb_exists. exists serverData.
  split; [by apply list_elem_of_In|]. apply registrar_fields_true. eauto.
Qed.

Lemma lookup_registrar d domainInfo serverData key :
  typeof domainInfo = "object" -> Object_keys domainInfo <> [] ->
  serverData ∈ Object_values domainInfo ->
  key ∈ registrar_keys ->
  truthy_prop (get serverData key) = true ->
  lookup d (Returns domainInfo) =
  Normal {| domain := d; status := st_unavailable; error := None |}.
Proof.
  intros Hty Hkeys Hin Hkey Htr. unfold lookup. simpl.
  rewrite record_guard by assumption.
  assert (existsb registrar_fields (Object_values domainInfo) = true) as ->;
    [|reflexivity].
  apply existsb_exists. exists serverData.
  split; [by apply list_elem_of_In|]. apply registrar_fields_true. eauto.
Qed.

Lemma lookup_plain d domainInfo :
  typeof domainInfo = "object" -> Object_keys domainInfo <> [] ->
  (forall serverData key,
     serverData ∈ Object_values domainInfo -> key ∈ registrar_keys ->
     truthy_prop (get serverData key) = false) ->
  lookup d (Returns domainInfo) =
  Normal {| domain := d;
            status := if mentions record_patterns (JSON_stringify domainInfo)
                      then st_available else st_unavailable;
            error := None |}.
Proof.
  intros Hty Hkeys Hnone. unfold lookup. simpl.
  rewrite record_guard by assumption.
  assert (existsb registrar_fields (Object_values domainInfo) = false) as ->.
  { destruct (existsb _ _) eqn:E; [|reflexivity].
    apply existsb_exists in E as (serverData & Hin & Hrf).
    apply registrar_fields_true in Hrf as (key & Hkey & Htr).
    rewrite (Hnone serverData key) in Htr;
      [discriminate|by apply list_elem_of_In|exact Hkey]. }
  unfold mentions, record_patterns, failure_patterns. simpl.
  rewrite orb_false_r, !orb_assoc.
  destruct (_ || _); reflexivity.
Qed.

Lemma lookup_empty d domainInfo :
  Object_keys domainInfo = [] ->
  lookup d (Returns domainInfo) =
  Normal {| domain := d; status := st_available; error := None |}.
Proof.
  intros Hkeys. unfold lookup. simpl. rewrite Hkeys. simpl.
  rewrite andb_false_r. reflexivity.
Qed.

Lemma lookup_raises d error :
  lookup d (Raises error) =
  match message_text error with
  | Normal text =>
      if mentions failure_patterns text
      then Normal {| domain := d; status := st_available; error := None |}
      else Normal {| domain := d; status := st_failed;
                     error := Some (ensureMcpError error) |}
  | Throw e => Throw e
  end.
Proof.
  unfold lookup. simpl. destruct (message_text error) as [text|e]; simpl;
    [|reflexivity].
  unfold mentions, failure_patterns. simpl.
  rewrite orb_false_r, !orb_assoc.
  destruct (_ || _); reflexivity.
Qed.

Lemma verdict_raises d error :
  verdict (settle (lookup d (Raises error))) =
  if not_found_failure error then Available else Indeterminate.
Proof.
  rewrite lookup_raises. unfold not_found_failure.
  destruct (message_text error) as [text|e]; [|reflexivity].
  destruct (mentions failure_patterns text); reflexivity.
Qed.

(** ** The claims *)

(** C1. A query that returns a non-empty record in which some source has a
    truthy [Registrar], [Creation Date] or [Expiry Date] gets the verdict
    unavailable, and its domain is in the [unavailable] list of the
    report. *)
Theorem registrar_data_is_unavailable
    sched whois domains i d domainInfo serverData key :
  settles_all sched (length domains) ->
  domains !! i = Some d ->
  whois i d = Returns domainInfo ->
  typeof domainInfo = "object" -> Object_keys domainInfo <> [] ->
  serverData ∈ Object_values domainInfo ->
  key ∈ registrar_keys ->
  truthy_prop (get serverData key) = true ->
  verdict_at whois i d = Unavailable /\
  exists report,
    check sched whois domains = Resolved report /\ d ∈ unavailable report.
Proof.
  intros Hall Hi Ho Hty Hkeys Hin Hkey Htr.
  assert (verdict_at whois i d = Unavailable) as Hv.
  { unfold verdict_at. rewrite Ho.
    by rewrite (lookup_registrar d domainInfo serverData key). }
  split; [exact Hv|]. eexists. split; [by apply check_resolved|]. simpl.
  by eapply elem_of_classified.
Qed.


(** C3. A query that returns a non-empty record with no truthy [Registrar],
    [Creation Date] or [Expiry Date] in any source gets the verdict
    available when the lower-cased serialization of the record contains one
    of the six substrings, and unavailable otherwise. *)
Theorem plain_record_verdict whois i d domainInfo :
  whois i d = Returns domainInfo ->
  typeof domainInfo = "object" -> Object_keys domainInfo <> [] ->
  (forall serverData key,
     serverData ∈ Object_values domainInfo -> key ∈ registrar_keys ->
     truthy_prop (get serverData key) = false) ->
  verdict_at whois i d =
  if mentions record_patterns (JSON_stringify domainInfo)
  then Available else Unavailable.
Proof.
  intros Ho Hty Hkeys Hnone. unfold verdict_at. rewrite Ho.
  rewrite lookup_plain by assumption.
  destruct (mentions record_patterns (JSON_stringify domainInfo)); reflexivity.
Qed.

(** C4. A query that returns a structurally empty record gets the verdict
    available, and its domain is in the [available] list of the report. *)
Theorem empty_record_is_available sched whois domains i d domainInfo :
  settles_all sched (length domains) ->
  domains !! i = Some d ->
  whois i d = Returns domainInfo ->
  Object_keys domainInfo = [] ->
  verdict_at whois i d = Available /\
  exists report,
    check sched whois domains = Resolved report /\ d ∈ available report.
Proof.
  intros Hall Hi Ho Hkeys.
  assert (verdict_at whois i d = Available) as Hv.
  { unfold verdict_at. rewrite Ho. by rewrite lookup_empty. }
  split; [exact Hv|]. eexists. split; [by apply check_resolved|]. simpl.
  by eapply elem_of_classified.
Qed.

(** C5, amended. Every occurrence of a name in the input is placed in at
    most one of the two lists: a name occurs in the two lists together at
    most as often as in the input. When the occurrences of each name get
    the same verdict (in particular when the input has no duplicate), no
    name is in both lists. *)
Theorem occurrence_in_at_most_one_list sched whois domains :
  settles_all sched (length domains) ->
  exists report,
    check sched whois domains = Resolved report /\
    (forall d,
       occurrences d (available report) + occurrences d (unavailable report)
       <= occurrences d domains) /\
    ((forall i j d,
        domains !! i = Some d -> domains !! j = Some d ->
        verdict_at whois i d = verdict_at whois j d) ->
     forall d, ~ (d ∈ available report /\ d ∈ unavailable report)) /\
    (NoDup domains ->
     forall d, ~ (d ∈ available report /\ d ∈ unavailable report)).
Proof.
  intros Hall. eexists. split; [by apply check_resolved|]. simpl.
  assert (forall d,
    (forall i j, domains !! i = Some d -> domains !! j = Some d ->
                 verdict_at whois i d = verdict_at whois j d) ->
    ~ (d ∈ classified Available whois domains /\
       d ∈ classified Unavailable whois domains)) as Hsame.
  { intros d Hsame [Ha Hu].
    apply elem_of_classified_from_inv in Ha as (i & Hi & Hvi).
    apply elem_of_classified_from_inv in Hu as (j & Hj & Hvj).
    simpl in Hvi, Hvj. rewrite (Hsame i j Hi Hj) in Hvi. congruence. }
  split; [|split].
  - intros d.
    pose proof (occurrences_classified_from 0 whois domains d) as H.
    unfold classified. lia.
  - intros Hfun d. apply Hsame. intros i j. apply Hfun.
  - intros Hnd d. apply Hsame. intros i j Hi Hj.
    by rewrite (NoDup_lookup domains i j d Hnd Hi Hj).
Qed.

(** C6. Once every query has settled, in whatever order, each list of the
    report is the stable filter of the input by its verdict: the domains
    keep the relative order they have in the input. *)
Theorem report_keeps_input_order sched whois domains :
  settles_all sched (length domains) ->
  exists report,
    check sched whois domains = Resolved report /\
    available report = classified Available whois domains /\
    unavailable report = classified Unavailable whois domains /\
    available report `sublist_of` domains /\
    unavailable report `sublist_of` domains.
Proof.
  intros Hall. eexists. split; [by apply check_resolved|]. simpl.
  repeat split; apply classified_from_sublist.
Qed.

(** C7. [check] never rejects: a query that raises is absorbed into the
    verdict available or indeterminate, also when the handler itself
    raises, and once every query has settled [check] resolves to a
    report. *)
Theorem lookup_failures_are_absorbed sched whois domains :
  (forall e, check sched whois domains <> Rejected e) /\
  (forall d error,
     verdict (settle (lookup d (Raises error))) = Available \/
     verdict (settle (lookup d (Raises error))) = Indeterminate) /\
  (settles_all sched (length domains) ->
   exists report, check sched whois domains = Resolved report).
Proof.
  split; [|split].
  - intros e. unfold check.
    destruct (allSettled _ _) as [|checks|e'] eqn:E; try discriminate.
    by apply allSettled_never_rejects in E.
  - intros d error. rewrite verdict_raises.
    destruct (not_found_failure error); auto.
  - intros Hall. eexists. by apply check_resolved.
Qed.

(** C8, amended. The verdict is a function of the outcome of the query
    alone: it depends neither on the domain name nor on the order in which
    the queries complete. Two occurrences of a name with the same outcome
    are both kept, in the same list, when their verdict is available or
    unavailable; when it is indeterminate neither is placed. *)
Theorem verdict_depends_on_outcome_only sched sched' whois domains :
  (forall d d' o,
     verdict (settle (lookup d o)) = verdict (settle (lookup d' o))) /\
  (settles_all sched (length domains) ->
   settles_all sched' (length domains) ->
   check sched whois domains = check sched' whois domains) /\
  (forall i j d,
     settles_all sched (length domains) ->
     i <> j -> domains !! i = Some d -> domains !! j = Some d ->
     whois i d = whois j d ->
     exists report,
       check sched whois domains = Resolved report /\
       match verdict_at whois i d with
       | Available => [d; d] `sublist_of` available report
       | Unavailable => [d; d] `sublist_of` unavailable report
       | Indeterminate =>
           occurrences d (available report) +
           occurrences d (unavailable report) + 2 <= occurrences d domains
       end).
Proof.
  split; [|split].
  - intros d d' [domainInfo|error].
    + unfold lookup. simpl.
      repeat match goal with |- context [if ?b then _ else _] =>
        destruct b end; reflexivity.
    + by rewrite !verdict_raises.
  - intros Hall Hall'. by rewrite !check_resolved.
  - intros i j d Hall Hne Hi Hj Ho.
    eexists. split; [by apply check_resolved|]. simpl.
    assert (verdict_at whois j d = verdict_at whois i d) as Hv
      by (unfold verdict_at; by rewrite Ho).
    pose proof (classified_duplicate (verdict_at whois i d) whois domains
                  i j d Hne Hi Hj eq_refl Hv) as Hdup.
    destruct (verdict_at whois i d); [exact Hdup|exact Hdup|].
    apply (occurrences_sublist d) in Hdup.
    pose proof (occurrences_classified_from 0 whois domains d) as H.
    rewrite !occurrences_cons in Hdup. rewrite !decide_True in Hdup by done.
    unfold classified in *. lia.
Qed.

(** C9. On the empty list [check] resolves to a report with two empty
    lists. *)
Theorem check_empty sched whois :
  check sched whois [] = Resolved {| available := []; unavailable := [] |}.
Proof.
  rewrite check_resolved; [reflexivity|]. intros i Hi. simpl in Hi. lia.
Qed.

(** C10. Each list of the report is a subsequence of the input, so each of
    its elements is an input domain, and the two lists together are no
    longer than the input. *)
Theorem report_within_input sched whois domains :
  settles_all sched (length domains) ->
  exists report,
    check sched whois domains = Resolved report /\
    available report `sublist_of` domains /\
    unavailable report `sublist_of` domains /\
    (forall d, d ∈ available report \/ d ∈ unavailable report -> d ∈ domains) /\
    length (available report) + length (unavailable report) <= length domains.
Proof.
  intros Hall. eexists. split; [by apply check_resolved|]. simpl.
  pose proof (classified_from_sublist 0 Available whois domains) as Ha.
  pose proof (classified_from_sublist 0 Unavailable whois domains) as Hu.
  repeat split; [exact Ha|exact Hu| |apply length_classified_from].
  intros d [Hd|Hd]; eapply elem_of_sublist; eauto.
Qed.

(** * Further properties of the service *)

Lemma allSettled_pending {A} (tasks : list (completion A)) sched i :
  i < length tasks -> i ∉ sched -> allSettled sched tasks = Pending.
Proof.
  intros Hi Hnot. unfold allSettled.
  destruct (mapM id _) as [values|] eqn:E; [|reflexivity].
  apply mapM_Some in E.
  destruct (lookup_lt_is_Some_2 tasks i Hi) as [c Hc].
  pose proof (lookup_slots tasks sched i) as Hslot.
  rewrite Hc in Hslot. simpl in Hslot. rewrite decide_False in Hslot by exact Hnot.
  destruct (Forall2_lookup_l _ _ _ _ _ E Hslot) as (y & _ & Hy). discriminate Hy.
Qed.

Lemma not_settles_all sched n :
  ~ settles_all sched n <-> exists i, i < n /\ i ∉ sched.
Proof.
  split.
  - intros Hnot.
    destruct (decide (Forall (fun i => i ∈ sched) (seq 0 n))) as [Hall|Hex].
    + exfalso. apply Hnot. intros i Hi.
      rewrite Forall_forall in Hall. apply Hall, elem_of_seq. lia.
    + apply not_Forall_Exists in Hex; [|apply _].
      apply Exists_exists in Hex as (i & Hin & Hi).
      exists i. apply elem_of_seq in Hin. split; [lia|exact Hi].
  - intros (i & Hi & Hnot) Hall. apply Hnot, Hall, Hi.
Qed.

(** X1. [check] gives no partial result: it resolves exactly when every
    query has settled and stays pending as long as one has not. *)
Theorem check_waits_for_every_query sched whois domains :
  (settles_all sched (length domains) <->
   exists report, check sched whois domains = Resolved report) /\
  ((exists i, i < length domains /\ i ∉ sched) <->
   check sched whois domains = Pending).
Proof.
  assert ((exists i, i < length domains /\ i ∉ sched) ->
          check sched whois domains = Pending) as Hpending.
  { intros (i & Hi & Hnot). unfold check.
    rewrite (allSettled_pending _ sched i); [reflexivity| |exact Hnot].
    by rewrite length_imap. }
  split; split.
  - intros Hall. eexists. by apply check_resolved.
  - intros [report Hr].
    destruct (decide (Forall (fun i => i ∈ sched) (seq 0 (length domains))))
      as [Hall|Hex].
    + intros i Hi. rewrite Forall_forall in Hall. apply Hall, elem_of_seq. lia.
    + exfalso. assert (~ settles_all sched (length domains)) as Hn.
      { intros Hall. apply Hex, Forall_forall. intros i Hi%elem_of_seq.
        apply Hall. lia. }
      apply not_settles_all in Hn. rewrite (Hpending Hn) in Hr. discriminate.
  - exact Hpending.
  - intros Hp. apply not_settles_all. intros Hall.
    rewrite check_resolved in Hp by exact Hall. discriminate.
Qed.

Lemma classified_from_partition k whois domains :
  classified_from k Available whois domains ++
  classified_from k Unavailable whois domains ++
  classified_from k Indeterminate whois domains ≡ₚ domains.
Proof.
  revert k. induction domains as [|d domains IH]; intros k.
  - rewrite !classified_from_nil. reflexivity.
  - rewrite !classified_from_cons. specialize (IH (S k)).
    destruct (verdict_at whois k d) eqn:Hv;
      repeat (case_decide; try congruence); simpl.
    + by constructor.
    + rewrite <- Permutation_middle. by constructor.
    + rewrite app_assoc, <- Permutation_middle, <- app_assoc. by constructor.
Qed.

(** X2. The report and the dropped domains partition the input: the two
    lists together with the domains whose verdict is indeterminate are a
    rearrangement of the input, so exactly the indeterminate occurrences
    are missing from the report. *)
Theorem report_partitions_input sched whois domains :
  settles_all sched (length domains) ->
  exists report,
    check sched whois domains = Resolved report /\
    available report ++ unavailable report ++
    classified Indeterminate whois domains ≡ₚ domains /\
    length (available report) + length (unavailable report) +
    length (classified Indeterminate whois domains) = length domains.
Proof.
  intros Hall. eexists. split; [by apply check_resolved|]. simpl.
  pose proof (classified_from_partition 0 whois domains) as Hperm.
  split; [exact Hperm|].
  apply Permutation_length in Hperm. rewrite !length_app in Hperm.
  unfold classified. lia.
Qed.

Lemma lookup_returns d domainInfo :
  exists st,
    (st = st_available \/ st = st_unavailable) /\
    lookup d (Returns domainInfo) =
    Normal {| domain := d; status := st; error := None |}.
Proof.
  unfold lookup. simpl.
  repeat match goal with |- context [if ?b then _ else _] => destruct b end;
    eauto.
Qed.

(** X3. A query that returns is never dropped: when no query of the batch
    raises, the two lists of the report are a rearrangement of the whole
    input. *)
Theorem answered_queries_are_all_placed sched whois domains :
  settles_all sched (length domains) ->
  (forall i d, domains !! i = Some d ->
               exists domainInfo, whois i d = Returns domainInfo) ->
  exists report,
    check sched whois domains = Resolved report /\
    available report ++ unavailable report ≡ₚ domains /\
    length (available report) + length (unavailable report) = length domains.
Proof.
  intros Hall Hret. eexists. split; [by apply check_resolved|]. simpl.
  assert (classified Indeterminate whois domains = []) as Hnone.
  { destruct (classified Indeterminate whois domains) as [|d rest] eqn:E;
      [reflexivity|exfalso].
    assert (d ∈ classified_from 0 Indeterminate whois domains) as Hin
      by (unfold classified in E; rewrite E; left).
    apply elem_of_classified_from_inv in Hin as (i & Hi & Hv). simpl in Hv.
    destruct (Hret i d Hi) as [domainInfo Ho].
    unfold verdict_at in Hv. rewrite Ho in Hv.
    destruct (lookup_returns d domainInfo) as (st & [-> | ->] & Hl);
      rewrite Hl in Hv; discriminate. }
  pose proof (classified_from_partition 0 whois domains) as Hperm.
  unfold classified in *. rewrite Hnone, app_nil_r in Hperm.
  split; [exact Hperm|].
  apply Permutation_length in Hperm. by rewrite length_app in Hperm.
Qed.

Lemma classified_from_shift k m v whois domains :
  classified_from (k + m) v whois domains =
  classified_from k v (fun i => whois (m + i)) domains.
Proof.
  revert k. induction domains as [|d domains IH]; intros k.
  - reflexivity.
  - rewrite !classified_from_cons.
    replace (S (k + m)) with (S k + m) by lia. rewrite IH.
    unfold verdict_at. replace (m + k) with (k + m) by lia. reflexivity.
Qed.

(** X4. Checking two batches one after the other and concatenating the
    reports gives the report of the concatenated batch (the queries of the
    second batch being those of the positions after the first). *)
Theorem check_app sched sched1 sched2 whois l1 l2 :
  settles_all sched (length (l1 ++ l2)) ->
  settles_all sched1 (length l1) ->
  settles_all sched2 (length l2) ->
  exists report report1 report2,
    check sched whois (l1 ++ l2) = Resolved report /\
    check sched1 whois l1 = Resolved report1 /\
    check sched2 (fun i => whois (length l1 + i)) l2 = Resolved report2 /\
    available report = available report1 ++ available report2 /\
    unavailable report = unavailable report1 ++ unavailable report2.
Proof.
  intros H H1 H2. do 3 eexists.
  split; [by apply check_resolved|]. split; [by apply check_resolved|].
  split; [by apply check_resolved|]. simpl. unfold classified.
  rewrite !classified_from_app.
  rewrite !(classified_from_shift 0 (length l1)). by split.
Qed.

(** X5. What a lookup returns names the domain it was launched for, and
    carries an error exactly when its status is failed; that error is the
    thrown value passed through [ensureMcpError], hence an [McpError]. *)
Theorem lookup_value_shape d o value :
  lookup d o = Normal value ->
  domain value = d /\
  (status value = st_failed <-> error value <> None) /\
  (forall e, error value = Some e ->
     instanceof_McpError e = true /\
     exists thrown_value, o = Raises thrown_value /\ e = ensureMcpError thrown_value).
Proof.
  destruct o as [domainInfo|err].
  - destruct (lookup_returns d domainInfo) as (st & Hst & ->).
    intros [= <-]. simpl. split; [reflexivity|].
    split; [|discriminate]. split; [|congruence].
    destruct Hst as [-> | ->]; discriminate.
  - rewrite lookup_raises.
    destruct (message_text err) as [text|e']; [|discriminate].
    destruct (mentions failure_patterns text); intros [= <-]; simpl;
      (split; [reflexivity|]); split; try (split; congruence);
      try discriminate.
    intros e [= <-]. split; [|eauto].
    destruct err; reflexivity.
Qed.

(** X6. A query that returns, or that throws an [Error] or a string,
    always yields a lookup value with a status. A query that throws [null]
    or [undefined] makes the catch block itself raise a [TypeError] (on
    reading [error.message]), so that its lookup is rejected. *)
Theorem lookup_rejected_for_nullish d :
  (forall domainInfo,
     exists value, lookup d (Returns domainInfo) = Normal value) /\
  (forall e, instanceof_Error e = true ->
     exists value, lookup d (Raises e) = Normal value) /\
  (forall s, exists value, lookup d (Raises (StringValue s)) = Normal value) /\
  (exists msg,
     lookup d (Raises NullValue) = Throw (ErrorInstance "TypeError" msg)) /\
  (exists msg,
     lookup d (Raises UndefinedValue) = Throw (ErrorInstance "TypeError" msg)).
Proof.
  repeat split.
  - intros domainInfo.
    destruct (lookup_returns d domainInfo) as (st & _ & ->). eauto.
  - intros e He. rewrite lookup_raises.
    destruct e; try discriminate He; simpl;
      match goal with |- context [if ?b then _ else _] => destruct b end; eauto.
  - intros s. rewrite lookup_raises. simpl.
    match goal with |- context [if ?b then _ else _] => destruct b end; eauto.
  - eexists. reflexivity.
  - eexists. reflexivity.
Qed.

(** * Errors *)

(** X7. [ensureMcpError] always returns an [McpError], returns its argument
    unchanged exactly when it already is one, and applying it twice is the
    same as applying it once. *)
Theorem ensureMcpError_idempotent e :
  instanceof_McpError (ensureMcpError e) = true /\
  (ensureMcpError e = e <-> instanceof_McpError e = true) /\
  ensureMcpError (ensureMcpError e) = ensureMcpError e.
Proof.
  split; [by destruct e|]. split; [|by destruct e].
  split.
  - intros <-. by destruct e.
  - by destruct e.
Qed.

(** X8. The message of what [ensureMcpError] returns is the message of
    the error when the error is an [Error], and [String(error)] for any
    other value. Whatever is not an [McpError] becomes an unexpected error
    without status code, whose original error is the wrapped value when it
    is an [Error] and is left out otherwise. *)
Theorem ensureMcpError_keeps_message e :
  message_prop (ensureMcpError e) =
  (if instanceof_Error e then message_prop e else Some (String_of e)) /\
  (instanceof_McpError e = false ->
   ensureMcpError e =
   McpErrorInstance
     (if instanceof_Error e then template (message_prop e) else String_of e)
     UNEXPECTED_ERROR None
     (if instanceof_Error e then Some e else None)).
Proof.
  split.
  - by destruct e.
  - intros Hnot. destruct e; try discriminate Hnot; reflexivity.
Qed.

(** X9. The tool error response is a single text block reading
    ["Error: "] followed by the message of the error when the error is an
    [Error], and by [String(error)] for any other value; normalising the
    error first changes nothing. *)
Theorem formatErrorForMcpTool_shape e :
  tool_content (formatErrorForMcpTool e) =
  [{| content_type := "text";
      text :=
        "Error: " +:+
        (if instanceof_Error e then template (message_prop e)
         else String_of e) |}] /\
  formatErrorForMcpTool (ensureMcpError e) = formatErrorForMcpTool e.
Proof.
  unfold formatErrorForMcpTool. by destruct e.
Qed.

(** X10. The resource error response is a single plain-text item for the
    given uri, with the text of the tool error response, described by the
    type of the error: unexpected for everything that is not an
    [McpError]. *)
Theorem formatErrorForMcpResource_shape e u :
  exists item,
    contents (formatErrorForMcpResource e u) = [item] /\
    uri item = u /\
    mimeType item = "text/plain" /\
    tool_content (formatErrorForMcpTool e) =
    [{| content_type := "text"; text := resource_text item |}] /\
    (instanceof_McpError e = false ->
     description item = Some "Error: UNEXPECTED_ERROR") /\
    (forall message type statusCode original,
       e = McpErrorInstance message type statusCode original ->
       description item = Some ("Error: " +:+ ErrorType_value type)).
Proof.
  eexists. split; [reflexivity|]. simpl.
  split; [reflexivity|]. split; [reflexivity|]. split; [reflexivity|].
  split.
  - intros Hnot. by destruct e.
  - by intros message type statusCode original ->.
Qed.

(** * The callers *)

Lemma controller_never_rejects sched whois domains e :
  DomainAvailabilityController_check sched whois domains <> Rejected e.
Proof.
  unfold DomainAvailabilityController_check.
  destruct (check sched whois domains) as [|report|e'] eqn:E; try discriminate.
  by apply check_never_rejects in E.
Qed.

Lemma controller_resolved sched whois domains :
  settles_all sched (length domains) ->
  DomainAvailabilityController_check sched whois domains =
  Resolved
    {| content :=
         JSON_stringify_gap "  " ""
           (report_value
              {| available := classified Available whois domains;
                 unavailable := classified Unavailable whois domains |});
       pagination := None |}.
Proof.
  intros Hall. unfold DomainAvailabilityController_check.
  by rewrite check_resolved.
Qed.

(** X11. The controller never rejects and never calls its error handler:
    once every query has settled it resolves, whatever the handler would
    do, to the report of the service printed as JSON with an indentation
    of two spaces. *)
Theorem controller_check_resolves sched whois domains :
  (forall e, DomainAvailabilityController_check sched whois domains <> Rejected e) /\
  (settles_all sched (length domains) ->
   DomainAvailabilityController_check sched whois domains =
   Resolved
     {| content :=
          JSON_stringify_gap "  " ""
            (report_value
               {| available := classified Available whois domains;
                  unavailable := classified Unavailable whois domains |});
        pagination := None |}).
Proof.
  split.
  - intros e. apply controller_never_rejects.
  - apply controller_resolved.
Qed.

(** X12. The tool handler never rejects: every answer is a single text
    block, and once every query has settled it is the JSON text of the
    report, whatever the error handler of the controller would do. *)
Theorem tool_always_answers sched whois args :
  (forall e, handleCheckDomainAvailability sched whois args <> Rejected e) /\
  (forall response,
     handleCheckDomainAvailability sched whois args = Resolved response ->
     exists t,
       tool_content response = [{| content_type := "text"; text := t |}]) /\
  (settles_all sched (length (domains args)) ->
   handleCheckDomainAvailability sched whois args =
   Resolved
     {| tool_content :=
          [{| content_type := "text";
              text :=
                JSON_stringify_gap "  " ""
                  (report_value
                     {| available :=
                          classified Available whois (domains args);
                        unavailable :=
                          classified Unavailable whois (domains args) |}) |}]
     |}).
Proof.
  unfold handleCheckDomainAvailability. split; [|split].
  - intros e. destruct (DomainAvailabilityController_check _ _ _); discriminate.
  - intros response.
    destruct (DomainAvailabilityController_check _ _ _) as [|result|e];
      [discriminate| |]; intros [= <-]; simpl; eauto.
  - intros Hall.
    rewrite (controller_resolved sched whois (domains args) Hall). reflexivity.
Qed.

(** X13. Given no domain, the command calls [console.error] once, does
    not call [console.log], makes no query and exits with status 1. Given
    at least one, once every query has settled it calls [console.log] once
    with the JSON text of the report, and neither [console.error] nor
    [process.exit]; a run that ends has called [process.exit], with status
    1, only in the first case. What the logger writes is not covered. *)
Theorem cli_action_outcome sched whois domains :
  (domains = [] ->
   check_domain_availability_action sched whois domains =
   Resolved {| console_log := [];
               console_error :=
                 ["Error: Please provide at least one domain name."];
               exitCode := Some 1 |}) /\
  (domains <> [] -> settles_all sched (length domains) ->
   check_domain_availability_action sched whois domains =
   Resolved
     {| console_log :=
          [JSON_stringify_gap "  " ""
             (report_value
                {| available := classified Available whois domains;
                   unavailable := classified Unavailable whois domains |})];
        console_error := [];
        exitCode := None |}) /\
  (forall run,
     check_domain_availability_action sched whois domains = Resolved run ->
     (exitCode run = Some 1 <-> domains = []) /\
     (exitCode run = None <-> domains <> [])).
Proof.
  unfold check_domain_availability_action. split; [|split].
  - intros ->. reflexivity.
  - intros Hne Hall. destruct domains as [|d rest]; [congruence|]. simpl.
    rewrite (controller_resolved sched whois (d :: rest) Hall). reflexivity.
  - intros run. destruct domains as [|d rest]; simpl.
    + intros [= <-]. simpl. split; split; congruence.
    + destruct (DomainAvailabilityController_check _ _ _) as [|result|e] eqn:E;
        [discriminate| |by apply controller_never_rejects in E].
      intros [= <-]. simpl. split; split; congruence.
Qed.

(** * Formatting *)

Lemma length_append_string (a b : string) :
  String.length (a +:+ b) = String.length a + String.length b.
Proof.
  induction a as [|x a IH]; [reflexivity|].
  change (String x a +:+ b) with (String x (a +:+ b)). simpl. by rewrite IH.
Qed.

Lemma String_repeat_length s n :
  String.length (String_repeat s n) = n * String.length s.
Proof.
  induction n as [|n IH]; [reflexivity|].
  change (String_repeat s (S n)) with (s +:+ String_repeat s n).
  rewrite length_append_string, IH. simpl. lia.
Qed.

(** X14. A heading starts with one to six [#], a space and then the text:
    the level is the number of [#] when it lies between 1 and 6, a smaller
    or omitted level gives one and a larger level six. *)
Theorem formatHeading_level text level :
  exists n,
    1 <= n <= 6 /\
    formatHeading text level = String_repeat "#" n +:+ " " +:+ text /\
    String.length (formatHeading text level) = n + 1 + String.length text /\
    Z.of_nat n = Z.min (Z.max (default 1%Z level) 1) 6.
Proof.
  exists (Z.to_nat (Z.min (Z.max (default 1%Z level) 1) 6)).
  split; [lia|]. split; [reflexivity|]. split; [|lia].
  unfold formatHeading.
  rewrite !length_append_string, String_repeat_length. simpl. lia.
Qed.

(** X15. [formatUrl] answers ["Not available"] exactly when the url is
    missing or empty; otherwise it is a markdown link to the url, titled by
    the url itself when the title is missing or empty. *)
Theorem formatUrl_link url title :
  (formatUrl url title = "Not available" <-> falsy_string url = true) /\
  (forall u, url = Some u -> u <> "" ->
     formatUrl url title =
     "[" +:+ (if falsy_string title then u else template title) +:+
     "](" +:+ u +:+ ")" /\
     (falsy_string title = true -> formatUrl url title = formatUrl url url)).
Proof.
  unfold formatUrl. split.
  - destruct (falsy_string url); [by split|].
    split; [|discriminate]. intros H. exfalso.
    unfold String.append in H. discriminate H.
  - intros u -> Hu.
    assert (falsy_string (Some u) = false) as Hf
      by (simpl; by apply String.eqb_neq).
    rewrite Hf. simpl. split; [reflexivity|]. intros ->. reflexivity.
Qed.

Lemma append_assoc_string (a b c : string) : (a +:+ b) +:+ c = a +:+ b +:+ c.
Proof.
  induction a as [|x a IH]; [reflexivity|].
  change ((String x a +:+ b) +:+ c) with (String x ((a +:+ b) +:+ c)).
  by rewrite IH.
Qed.

Lemma join_app sep (l1 l2 : list string) :
  l1 <> [] -> l2 <> [] ->
  join sep (l1 ++ l2) = join sep l1 +:+ sep +:+ join sep l2.
Proof.
  intros H1 H2. induction l1 as [|p l1 IH]; [congruence|].
  destruct l1 as [|q l1].
  - destruct l2; [congruence|reflexivity].
  - change (join sep ((p :: q :: l1) ++ l2))
      with (p +:+ sep +:+ join sep ((q :: l1) ++ l2)).
    rewrite IH by discriminate.
    change (join sep (p :: q :: l1)) with (p +:+ sep +:+ join sep (q :: l1)).
    by rewrite !append_assoc_string.
Qed.

(** X16. A numbered list of no item is ["No items."]; of one item it is
    that item formatted with index 0; and the list of two non-empty runs of
    items is the two formatted lists around one separator, the indices of
    the second run continuing those of the first. *)
Theorem formatNumberedList_app {T} (l1 l2 : list T) (x : T)
    (formatter : T -> nat -> string) :
  formatNumberedList [] formatter = "No items." /\
  formatNumberedList [x] formatter = formatter x 0 /\
  (l1 <> [] -> l2 <> [] ->
   formatNumberedList (l1 ++ l2) formatter =
   formatNumberedList l1 formatter +:+
   (newline +:+ newline +:+ "---" +:+ newline +:+ newline) +:+
   formatNumberedList l2 (fun item index => formatter item (length l1 + index))).
Proof.
  split; [reflexivity|]. split; [reflexivity|]. intros H1 H2.
  unfold formatNumberedList.
  destruct l1 as [|a l1]; [congruence|]. destruct l2 as [|b l2]; [congruence|].
  rewrite length_app. simpl length. simpl Nat.eqb.
  rewrite imap_app. apply join_app; discriminate.
Qed.

End Classifier.




(** * Runs on the sample batches *)

(** The batch of the specification, completing in reverse order. *)
Example sample_run :
  check toLowerCase_ascii [5; 4; 3; 2; 1; 0] sample_whois sample_domains =
  Resolved {| available := ["a-times-out.com"; "totally-free-xyz123.dev";
                            "free-idea.dev"];
              unavailable := ["google.com"] |}.
Proof. reflexivity. Qed.

(** A query that never settles leaves [check] pending. *)
Example sample_run_pending :
  check toLowerCase_ascii [5; 4; 2; 1; 0] sample_whois sample_domains = Pending.
Proof. reflexivity. Qed.

(** A handler that raises rejects its own lookup only. *)
Example sample_null_thrower :
  settle (lookup toLowerCase_ascii "null-thrower.org" (Raises NullValue)) =
  rejected (ErrorInstance "TypeError"
              "Cannot read properties of null (reading 'message')").
Proof. reflexivity. Qed.

Lemma registrar_data_is_unavailable_witness :
  verdict_at toLowerCase_ascii sample_whois 1 "google.com" = Unavailable /\
  exists report,
    check toLowerCase_ascii [5; 4; 3; 2; 1; 0] sample_whois sample_domains
    = Resolved report /\
    "google.com" ∈ unavailable report.
Proof.
  apply (registrar_data_is_unavailable toLowerCase_ascii [5; 4; 3; 2; 1; 0]
           sample_whois sample_domains 1 "google.com" registered_record
           (VObj [("Registrar", VStr "MarkMonitor Inc.")]) "Registrar").
  - apply settles_all_check. reflexivity.
  - reflexivity.
  - reflexivity.
  - reflexivity.
  - discriminate.
  - simpl. left.
  - left.
  - reflexivity.
Defined.



Lemma plain_record_verdict_witness :
  verdict_at toLowerCase_ascii sample_whois 4 "free-idea.dev" = Available.
Proof.
  apply (plain_record_verdict toLowerCase_ascii sample_whois 4 "free-idea.dev"
           not_found_record).
  - reflexivity.
  - reflexivity.
  - discriminate.
  - apply no_registrar_fields_check. reflexivity.
Defined.

Lemma empty_record_is_available_witness :
  verdict_at toLowerCase_ascii sample_whois 2 "totally-free-xyz123.dev"
  = Available /\
  exists report,
    check toLowerCase_ascii [0; 1; 2; 3; 4; 5] sample_whois sample_domains
    = Resolved report /\
    "totally-free-xyz123.dev" ∈ available report.
Proof.
  apply (empty_record_is_available toLowerCase_ascii [0; 1; 2; 3; 4; 5]
           sample_whois sample_domains 2 "totally-free-xyz123.dev" (VObj [])).
  - apply settles_all_check. reflexivity.
  - reflexivity.
  - reflexivity.
  - reflexivity.
Defined.

(** C5 as stated fails: a name given twice, whose first query returns an
    empty record and whose second returns registrar data, is in both
    lists. *)
Lemma duplicate_name_in_both_lists :
  exists report,
    check toLowerCase_ascii [0; 1] flaky_whois ["a.com"; "a.com"]
    = Resolved report /\
    report = {| available := ["a.com"]; unavailable := ["a.com"] |} /\
    "a.com" ∈ available report /\ "a.com" ∈ unavailable report.
Proof.
  eexists. split; [reflexivity|]. split; [reflexivity|]. split; left.
Qed.

Lemma occurrence_in_at_most_one_list_witness :
  exists report,
    check toLowerCase_ascii [1; 0] flaky_whois ["a.com"; "b.com"]
    = Resolved report /\
    (forall d,
       occurrences d (available report) + occurrences d (unavailable report)
       <= occurrences d ["a.com"; "b.com"]) /\
    ((forall i j d,
        ["a.com"; "b.com"] !! i = Some d -> ["a.com"; "b.com"] !! j = Some d ->
        verdict_at toLowerCase_ascii flaky_whois i d
        = verdict_at toLowerCase_ascii flaky_whois j d) ->
     forall d, ~ (d ∈ available report /\ d ∈ unavailable report)) /\
    (NoDup ["a.com"; "b.com"] ->
     forall d, ~ (d ∈ available report /\ d ∈ unavailable report)).
Proof.
  apply (occurrence_in_at_most_one_list toLowerCase_ascii [1; 0] flaky_whois
           ["a.com"; "b.com"]).
  apply settles_all_check. reflexivity.
Defined.

Lemma report_keeps_input_order_witness :
  exists report,
    check toLowerCase_ascii [3; 0; 5; 1; 4; 2] sample_whois sample_domains
    = Resolved report /\
    available report = classified toLowerCase_ascii Available sample_whois
                         sample_domains /\
    unavailable report = classified toLowerCase_ascii Unavailable sample_whois
                           sample_domains /\
    available report `sublist_of` sample_domains /\
    unavailable report `sublist_of` sample_domains.
Proof.
  apply (report_keeps_input_order toLowerCase_ascii [3; 0; 5; 1; 4; 2]
           sample_whois sample_domains).
  apply settles_all_check. reflexivity.
Defined.

Lemma lookup_failures_are_absorbed_witness :
  exists report,
    check toLowerCase_ascii [0; 1; 2; 3; 4; 5] sample_whois sample_domains
    = Resolved report.
Proof.
  apply (lookup_failures_are_absorbed toLowerCase_ascii [0; 1; 2; 3; 4; 5]
           sample_whois sample_domains).
  apply settles_all_check. reflexivity.
Defined.

(** C8 as stated fails: of a name given twice whose two queries both time
    out, no occurrence is kept. *)
Lemma indeterminate_duplicate_is_dropped :
  down_whois 0 "a.com" = down_whois 1 "a.com" /\
  exists report,
    check toLowerCase_ascii [0; 1] down_whois ["a.com"; "a.com"]
    = Resolved report /\
    report = {| available := []; unavailable := [] |} /\
    ("a.com" ∉ available report) /\ ("a.com" ∉ unavailable report).
Proof.
  split; [reflexivity|]. eexists. split; [reflexivity|].
  split; [reflexivity|]. split; apply not_elem_of_nil.
Qed.

Lemma verdict_depends_on_outcome_only_witness :
  check toLowerCase_ascii [0; 1; 2] down_whois ["a.com"; "b.com"; "a.com"] =
  check toLowerCase_ascii [2; 1; 0] down_whois ["a.com"; "b.com"; "a.com"] /\
  exists report,
    check toLowerCase_ascii [0; 1; 2] down_whois ["a.com"; "b.com"; "a.com"]
    = Resolved report /\
    occurrences "a.com" (available report) +
    occurrences "a.com" (unavailable report) + 2
    <= occurrences "a.com" ["a.com"; "b.com"; "a.com"].
Proof.
  pose proof (verdict_depends_on_outcome_only toLowerCase_ascii
                [0; 1; 2] [2; 1; 0] down_whois ["a.com"; "b.com"; "a.com"])
    as (_ & Hsched & Hdup).
  split.
  - apply Hsched; apply settles_all_check; reflexivity.
  - apply (Hdup 0 2 "a.com").
    + apply settles_all_check. reflexivity.
    + discriminate.
    + reflexivity.
    + reflexivity.
    + reflexivity.
Defined.

Lemma report_within_input_witness :
  exists report,
    check toLowerCase_ascii [5; 4; 3; 2; 1; 0] sample_whois sample_domains
    = Resolved report /\
    available report `sublist_of` sample_domains /\
    unavailable report `sublist_of` sample_domains /\
    (forall d, d ∈ available report \/ d ∈ unavailable report ->
               d ∈ sample_domains) /\
    length (available report) + length (unavailable report)
    <= length sample_domains.
Proof.
  apply (report_within_input toLowerCase_ascii [5; 4; 3; 2; 1; 0]
           sample_whois sample_domains).
  apply settles_all_check. reflexivity.
Defined.

(** * Runs for the further properties *)

Lemma check_waits_for_every_query_witness :
  (exists report,
     check toLowerCase_ascii [5; 4; 3; 2; 1; 0] sample_whois sample_domains
     = Resolved report) /\
  check toLowerCase_ascii [5; 4; 2; 1; 0] sample_whois sample_domains = Pending.
Proof.
  split.
  - apply (check_waits_for_every_query toLowerCase_ascii [5; 4; 3; 2; 1; 0]
             sample_whois sample_domains).
    apply settles_all_check. reflexivity.
  - apply (check_waits_for_every_query toLowerCase_ascii [5; 4; 2; 1; 0]
             sample_whois sample_domains).
    exists 3. split; [simpl; lia|].
    apply (bool_decide_eq_false_1 _). reflexivity.
Defined.

Lemma report_partitions_input_witness :
  exists report,
    check toLowerCase_ascii [5; 4; 3; 2; 1; 0] sample_whois sample_domains
    = Resolved report /\
    available report ++ unavailable report ++
    classified toLowerCase_ascii Indeterminate sample_whois sample_domains
    ≡ₚ sample_domains /\
    length (available report) + length (unavailable report) +
    length (classified toLowerCase_ascii Indeterminate sample_whois
              sample_domains)
    = length sample_domains.
Proof.
  apply (report_partitions_input toLowerCase_ascii [5; 4; 3; 2; 1; 0]
           sample_whois sample_domains).
  apply settles_all_check. reflexivity.
Defined.

Lemma answered_queries_are_all_placed_witness :
  exists report,
    check toLowerCase_ascii [1; 0] flaky_whois ["free.dev"; "google.com"]
    = Resolved report /\
    available report ++ unavailable report ≡ₚ ["free.dev"; "google.com"] /\
    length (available report) + length (unavailable report) = 2.
Proof.
  apply (answered_queries_are_all_placed toLowerCase_ascii [1; 0] flaky_whois
           ["free.dev"; "google.com"]).
  - apply settles_all_check. reflexivity.
  - intros i d _. destruct i; eexists; reflexivity.
Defined.

Lemma check_app_witness :
  exists report report1 report2,
    check toLowerCase_ascii [2; 1; 0] sample_whois
      (["a-times-out.com"; "google.com"] ++ ["totally-free-xyz123.dev"])
    = Resolved report /\
    check toLowerCase_ascii [1; 0] sample_whois
      ["a-times-out.com"; "google.com"]
    = Resolved report1 /\
    check toLowerCase_ascii [0] (fun i => sample_whois (2 + i))
      ["totally-free-xyz123.dev"]
    = Resolved report2 /\
    available report = available report1 ++ available report2 /\
    unavailable report = unavailable report1 ++ unavailable report2.
Proof.
  apply (check_app toLowerCase_ascii [2; 1; 0] [1; 0] [0] sample_whois
           ["a-times-out.com"; "google.com"] ["totally-free-xyz123.dev"]);
    apply settles_all_check; reflexivity.
Defined.

Lemma lookup_value_shape_witness :
  instanceof_McpError (ensureMcpError timeout_error) = true /\
  exists thrown_value,
    Raises timeout_error = Raises thrown_value /\
    ensureMcpError timeout_error = ensureMcpError thrown_value.
Proof.
  destruct (lookup_value_shape toLowerCase_ascii "unreachable.io"
              (Raises timeout_error)
              {| domain := "unreachable.io"; status := st_failed;
                 error := Some (ensureMcpError timeout_error) |})
    as (_ & _ & Herror).
  - reflexivity.
  - apply (Herror (ensureMcpError timeout_error)). reflexivity.
Defined.

Lemma lookup_rejected_for_nullish_witness :
  exists value,
    lookup toLowerCase_ascii "unreachable.io" (Raises timeout_error)
    = Normal value.
Proof.
  destruct (lookup_rejected_for_nullish toLowerCase_ascii "unreachable.io")
    as (_ & Herror & _).
  apply (Herror timeout_error). reflexivity.
Defined.

Lemma ensureMcpError_idempotent_witness :
  ensureMcpError (createApiError "Original error" None None)
  = createApiError "Original error" None None.
Proof.
  destruct (ensureMcpError_idempotent
              (createApiError "Original error" None None))
    as (_ & [_ Hsame] & _).
  apply Hsame. reflexivity.
Defined.

Lemma ensureMcpError_keeps_message_witness :
  ensureMcpError (StringValue "String error") =
  McpErrorInstance "String error" UNEXPECTED_ERROR None None /\
  ensureMcpError (ErrorInstance "Error" "Standard error") =
  McpErrorInstance "Standard error" UNEXPECTED_ERROR None
    (Some (ErrorInstance "Error" "Standard error")).
Proof.
  split.
  - apply (ensureMcpError_keeps_message (StringValue "String error")).
    reflexivity.
  - apply (ensureMcpError_keeps_message (ErrorInstance "Error" "Standard error")).
    reflexivity.
Defined.

Lemma formatErrorForMcpResource_shape_witness :
  exists item,
    contents (formatErrorForMcpResource (StringValue "String error") "test://uri")
    = [item] /\
    uri item = "test://uri" /\
    description item = Some "Error: UNEXPECTED_ERROR".
Proof.
  destruct (formatErrorForMcpResource_shape (StringValue "String error")
              "test://uri") as (item & Hc & Hu & _ & _ & Hd & _).
  exists item. split; [exact Hc|]. split; [exact Hu|]. apply Hd. reflexivity.
Defined.

Lemma controller_check_resolves_witness :
  exists text,
    DomainAvailabilityController_check toLowerCase_ascii rethrow
      [5; 4; 3; 2; 1; 0] sample_whois sample_domains
    = Resolved {| content := text; pagination := None |}.
Proof.
  eexists.
  apply (controller_check_resolves toLowerCase_ascii rethrow
           [5; 4; 3; 2; 1; 0] sample_whois sample_domains).
  apply settles_all_check. reflexivity.
Defined.

Lemma tool_always_answers_witness :
  exists t,
    handleCheckDomainAvailability toLowerCase_ascii rethrow
      [5; 4; 3; 2; 1; 0] sample_whois {| domains := sample_domains |}
    = Resolved {| tool_content := [{| content_type := "text"; text := t |}] |}.
Proof.
  eexists.
  apply (tool_always_answers toLowerCase_ascii rethrow [5; 4; 3; 2; 1; 0]
           sample_whois {| domains := sample_domains |}).
  apply settles_all_check. reflexivity.
Defined.

Lemma cli_action_outcome_witness :
  check_domain_availability_action toLowerCase_ascii rethrow [] sample_whois []
  = Resolved {| console_log := [];
                console_error :=
                  ["Error: Please provide at least one domain name."];
                exitCode := Some 1 |} /\
  exists line,
    check_domain_availability_action toLowerCase_ascii rethrow
      [5; 4; 3; 2; 1; 0] sample_whois sample_domains
    = Resolved {| console_log := [line]; console_error := [];
                  exitCode := None |}.
Proof.
  split.
  - apply (cli_action_outcome toLowerCase_ascii rethrow [] sample_whois []).
    reflexivity.
  - eexists.
    apply (cli_action_outcome toLowerCase_ascii rethrow [5; 4; 3; 2; 1; 0]
             sample_whois sample_domains).
    + discriminate.
    + apply settles_all_check. reflexivity.
Defined.

Lemma formatUrl_link_witness :
  formatUrl (Some "https://example.com") (Some "") =
  "[https://example.com](https://example.com)" /\
  (falsy_string (Some "") = true ->
   formatUrl (Some "https://example.com") (Some "") =
   formatUrl (Some "https://example.com") (Some "https://example.com")).
Proof.
  destruct (formatUrl_link (Some "https://example.com") (Some ""))
    as [_ Hlink].
  apply (Hlink "https://example.com").
  - reflexivity.
  - discriminate.
Defined.

Lemma formatNumberedList_app_witness :
  formatNumberedList (["a"; "b"] ++ ["c"]) (fun item index => pretty index +:+ item)
  = formatNumberedList ["a"; "b"] (fun item index => pretty index +:+ item) +:+
    (newline +:+ newline +:+ "---" +:+ newline +:+ newline) +:+
    formatNumberedList ["c"] (fun item index => pretty (2 + index) +:+ item).
Proof.
  apply (formatNumberedList_app ["a"; "b"] ["c"] "a"
           (fun item index => pretty index +:+ item)); discriminate.
Defined.

(** The text the controller hands out for the sample batch. *)
Example sample_content :
  DomainAvailabilityController_check toLowerCase_ascii rethrow [0; 1] flaky_whois
    ["free.dev"; "google.com"]
  = Resolved
      {| content :=
           "{" +:+ newline +:+
           "  " +:+ dquote +:+ "available" +:+ dquote +:+ ": [" +:+ newline +:+
           "    " +:+ dquote +:+ "free.dev" +:+ dquote +:+ newline +:+
           "  ]," +:+ newline +:+
           "  " +:+ dquote +:+ "unavailable" +:+ dquote +:+ ": [" +:+ newline +:+
           "    " +:+ dquote +:+ "google.com" +:+ dquote +:+ newline +:+
           "  ]" +:+ newline +:+
           "}";
         pagination := None |}.
Proof. reflexivity. Qed.
